(** * PFERD [report.py]: the synchronisation report and its conflict check

    A shallow embedding of [PFERD/report.py].  The class [Report] holds five
    Python sets of [PurePath]; [mark] walks over the intersection of two of
    them and either raises one of two exceptions or adds the path to
    [known_files].

    - Python's [Set[PurePath]] is a [gset PurePath].
    - A method of [Report] is a computation in a small state-and-exception
      monad [M]: it takes the object's state and gives back the state it
      leaves behind together with either the returned value or the raised
      exception.
    - The order in which Python walks over a set is not fixed by the
      language.  Every call of [mark] therefore takes an [iteration], any
      function listing each set as a permutation of its elements.
    - Paths are those of the POSIX flavour of [pathlib] ([PurePosixPath],
      which is what [PurePath(...)] builds on every system but Windows).
      The Windows flavour, with its drives and its case-folded comparison, is
      not modelled: every statement below that speaks of the parts of a path
      (prefixes, ancestors, roots) is a statement about POSIX paths.  The
      statements that only use the tests the code itself makes (equality of
      paths and [is_relative_to]) do not depend on this reading. *)

From Stdlib Require Import Ascii String.
From stdpp Require Import base decidable option list sets gmap strings.

Set Warnings "-clear-no-such-hyp".

Open Scope string_scope.

(** ** [pathlib.PurePath], POSIX flavour *)

(** [report.py] takes its paths from Python's [pathlib].  The definitions
    below follow [PurePath] of CPython's [pathlib.py] (the code is the same
    from 3.8, which [report.py] targets, to 3.11) for the POSIX flavour only,
    that is for [PurePosixPath] with [_PosixFlavour]: the drive is always
    empty and [casefold_parts] leaves the parts as they are.  Paths of the
    Windows flavour ([PureWindowsPath]: drives such as ["c:"], comparison
    after case folding) are outside this model. *)

Module pathlib.

(** A POSIX [PurePath] is compared and hashed by its tuple of parts
    ([PurePath.__eq__] compares [_cparts], which for the POSIX flavour are
    the parts themselves), so a path is its list of parts.  An anchored path
    carries its root as first part: [PurePath("/a/b")] is ["/"; "a"; "b"],
    [PurePath("a/b")] is ["a"; "b"] and [PurePath(".")] is []. *)
Definition PurePath : Type := list string.

(** [self._drv]: [_PosixFlavour.splitroot] gives every path the empty
    drive. *)
Definition _drv (p : PurePath) : string := "".

(** [self._root]: "/" or "//" when the path is anchored, "" otherwise. *)
Definition _root (p : PurePath) : string :=
  match p with
  | s :: _ => if bool_decide (s = "/") || bool_decide (s = "//") then s else ""
  | [] => ""
  end.

(** [_PosixFlavour.casefold_parts]: [return parts]. *)
Definition casefold_parts (parts : list string) : list string := parts.

(** Python truthiness of a [str]. *)
Definition truthy (s : string) : bool := negb (bool_decide (s = "")).

(** The local [abs_parts] of [relative_to]:
    [[drv, root] + parts[1:]] if [root] else [parts]. *)
Definition abs_parts (p : PurePath) : list string :=
  if truthy (_root p) then [_drv p; _root p] ++ drop 1 p else p.

(** [PurePath.relative_to(self, other)] for the POSIX flavour; [None]
    stands for [ValueError] and [cf] is [casefold_parts].  When the call
    returns with [n = 1] the path has no root, so the parts of
    the result are [abs_parts[n:]].

    [[
      n = len(to_abs_parts)
      if (root or drv) if n == 0 else cf(abs_parts[:n]) != cf(to_abs_parts):
          raise ValueError(...)
      return self._from_parsed_parts('', root if n == 1 else '', abs_parts[n:])
    ]] *)
Definition relative_to (self other : PurePath) : option PurePath :=
  let to_abs_parts := abs_parts other in
  let n := length to_abs_parts in
  if (if bool_decide (n = 0)
      then truthy (_root self) || truthy (_drv self)
      else negb (bool_decide (casefold_parts (take n (abs_parts self))
                              = casefold_parts to_abs_parts)))
  then None
  else Some (drop n (abs_parts self)).

(** No separator inside a name. *)
Fixpoint has_sep (s : string) : bool :=
  match s with
  | EmptyString => false
  | String c s' => bool_decide (c = "/"%char) || has_sep s'
  end.

(** What the parser of [PurePath] leaves in a part that is not the root:
    not empty, not ".", no separator. *)
Definition is_name (s : string) : bool :=
  negb (bool_decide (s = "")) && negb (bool_decide (s = ".")) && negb (has_sep s).

(** The lists of parts that are values of [PurePosixPath]: names, after an
    optional root. *)
Definition valid (p : PurePath) : bool :=
  match p with
  | [] => true
  | s :: rest =>
      (bool_decide (s = "/") || bool_decide (s = "//") || is_name s)
      && forallb is_name rest
  end.

End pathlib.

Import pathlib.

(** ** The exceptions of [report.py] *)

Inductive Exception : Type :=
| MarkDuplicateException (path : PurePath)
| MarkConflictException (path collides_with : PurePath).

#[global] Instance Exception_eq_dec : EqDecision Exception.
Proof. solve_decision. Defined.

(** [is_relative_to]: [True] if [a.relative_to(b)] returns, [False] if it
    raises [ValueError]. *)
Definition is_relative_to (a b : PurePath) : bool :=
  match relative_to a b with
  | Some _ => true
  | None => false
  end.

(** ** The state of a [Report] *)

Record Report : Type := mkReport {
  reserved_files : gset PurePath;
  known_files : gset PurePath;
  new_files : gset PurePath;
  changed_files : gset PurePath;
  deleted_files : gset PurePath;
}.

(** [Report.__init__] *)
Definition init : Report :=
  {| reserved_files := ∅; known_files := ∅;
     new_files := ∅; changed_files := ∅; deleted_files := ∅ |}.

(** ** Methods as state-and-exception computations *)

Inductive Outcome (A : Type) : Type :=
| Return (a : A)
| Raise (e : Exception).
Arguments Return {A} a.
Arguments Raise {A} e.

Definition M (A : Type) : Type := Report → Report * Outcome A.

#[global] Instance M_ret : MRet M := λ A a self, (self, Return a).

#[global] Instance M_bind : MBind M := λ A B f m self,
  match m self with
  | (self', Return a) => f a self'
  | (self', Raise e) => (self', Raise e)
  end.

Definition raise {A : Type} (e : Exception) : M A := λ self, (self, Raise e).
Definition get {A : Type} (f : Report → A) : M A := λ self, (self, Return (f self)).
Definition update (f : Report → Report) : M unit := λ self, (f self, Return ()).

(** [for x in xs: body(x)] *)
Fixpoint for_each {A : Type} (xs : list A) (body : A → M unit) : M unit :=
  match xs with
  | [] => mret ()
  | x :: xs' => body x ;; for_each xs' body
  end.

(** The state a call leaves and what it returned or raised. *)
Definition state_after {A : Type} (r : Report * Outcome A) : Report := r.1.
Definition outcome {A : Type} (r : Report * Outcome A) : Outcome A := r.2.

(** ** Walking over a Python set *)

(** One way of walking over sets: each set is listed as some permutation of
    its elements.  The order in which CPython walks over a set depends on how
    the set was built, not only on its elements, so two calls that may meet
    sets with the same elements are not assumed to walk them in the same
    way: a statement about two such calls speaks of two iterations. *)
Record iteration : Type := mkIteration {
  iter : gset PurePath → list PurePath;
  iter_perm : ∀ s, iter s ≡ₚ elements s;
}.

Definition in_elements_order : iteration :=
  {| iter := elements; iter_perm := λ s, reflexivity (elements s) |}.

Program Definition in_reverse_order : iteration :=
  {| iter := λ s, reverse (elements s) |}.
Next Obligation. intros s. apply reverse_Permutation. Qed.

(** ** The methods of [Report] *)

Definition mark_reserved (path : PurePath) : M unit :=
  update (λ self,
    {| reserved_files := {[path]} ∪ reserved_files self;
       known_files := known_files self;
       new_files := new_files self;
       changed_files := changed_files self;
       deleted_files := deleted_files self |}).

(** The body of the loop of [mark]. *)
Definition mark_check (path other : PurePath) : M unit :=
  if bool_decide (path = other) then raise (MarkDuplicateException path)
  else if is_relative_to path other || is_relative_to other path
       then raise (MarkConflictException path other)
       else mret ().

Definition mark (it : iteration) (path : PurePath) : M unit :=
  others ← get (λ self, iter it (known_files self ∩ reserved_files self));
  for_each others (mark_check path) ;;
  update (λ self,
    {| reserved_files := reserved_files self;
       known_files := {[path]} ∪ known_files self;
       new_files := new_files self;
       changed_files := changed_files self;
       deleted_files := deleted_files self |}).

Definition marked (path : PurePath) : M bool :=
  get (λ self, bool_decide (path ∈ known_files self)).

Definition add_file (path : PurePath) : M unit :=
  update (λ self,
    {| reserved_files := reserved_files self;
       known_files := known_files self;
       new_files := {[path]} ∪ new_files self;
       changed_files := changed_files self;
       deleted_files := deleted_files self |}).

Definition change_file (path : PurePath) : M unit :=
  update (λ self,
    {| reserved_files := reserved_files self;
       known_files := known_files self;
       new_files := new_files self;
       changed_files := {[path]} ∪ changed_files self;
       deleted_files := deleted_files self |}).

Definition delete_file (path : PurePath) : M unit :=
  update (λ self,
    {| reserved_files := reserved_files self;
       known_files := known_files self;
       new_files := new_files self;
       changed_files := changed_files self;
       deleted_files := {[path]} ∪ deleted_files self |}).

(** ** A caller's session: a sequence of calls on one [Report] *)

Inductive Call : Type :=
| call_mark_reserved (path : PurePath)
| call_mark (it : iteration) (path : PurePath)
| call_marked (path : PurePath)
| call_add_file (path : PurePath)
| call_change_file (path : PurePath)
| call_delete_file (path : PurePath).

(** The state one call leaves; a caller that catches the exceptions of
    [mark] goes on with the state the failed call left. *)
Definition perform (c : Call) (self : Report) : Report :=
  match c with
  | call_mark_reserved path => state_after (mark_reserved path self)
  | call_mark it path => state_after (mark it path self)
  | call_marked path => state_after (marked path self)
  | call_add_file path => state_after (add_file path self)
  | call_change_file path => state_after (change_file path self)
  | call_delete_file path => state_after (delete_file path self)
  end.

(** History kept beside the state: the paths whose [mark] returned while
    the path was in [reserved_files]. *)
Definition marked_while_reserved (c : Call) (self : Report)
    (seen : gset PurePath) : gset PurePath :=
  match c with
  | call_mark it path =>
      match outcome (mark it path self) with
      | Return _ =>
          if bool_decide (path ∈ reserved_files self) then {[path]} ∪ seen else seen
      | Raise _ => seen
      end
  | _ => seen
  end.

Definition step (st : Report * gset PurePath) (c : Call) : Report * gset PurePath :=
  (perform c st.1, marked_while_reserved c st.1 st.2).

Definition run (calls : list Call) : Report * gset PurePath :=
  foldl step (init, ∅) calls.

(** ** The words of the specification *)

(** Glossary: "path A is an ancestor of path B if B's segments begin with
    exactly A's segments and B has strictly more segments". *)
Definition is_ancestor (a b : PurePath) : bool :=
  bool_decide (a `prefix_of` b) && bool_decide (length a < length b).

(** A POSIX path with a root: its first part is "/" or "//". *)
Definition anchored (p : PurePath) : bool := truthy (_root p).

(** The ancestors that [relative_to] recognises among POSIX paths: the
    empty path is above the paths without a root only. *)
Definition is_pathlib_ancestor (a b : PurePath) : bool :=
  is_ancestor a b && negb (bool_decide (a = []) && anchored b).

(** The condition under which the body of the loop of [mark] raises. *)
Definition collides (path other : PurePath) : bool :=
  bool_decide (path = other)
  || is_relative_to path other || is_relative_to other path.

(** The state a call of [mark] that returns leaves behind. *)
Definition with_known (path : PurePath) (self : Report) : Report :=
  {| reserved_files := reserved_files self;
     known_files := {[path]} ∪ known_files self;
     new_files := new_files self;
     changed_files := changed_files self;
     deleted_files := deleted_files self |}.

(** Every path held in the two sets [mark] reads is a value of [PurePath]. *)
Definition valid_report (self : Report) : Prop :=
  ∀ p, p ∈ known_files self ∩ reserved_files self → valid p = true.

(** ** Paths, reports and sessions used as examples and in the proofs *)

Definition p_a_b : PurePath := ["a"; "b"].
Definition p_a_b_c : PurePath := ["a"; "b"; "c"].
Definition p_a_c : PurePath := ["a"; "c"].
Definition p_dot : PurePath := [].
Definition p_abs_a : PurePath := ["/"; "a"].
Definition p_x : PurePath := ["x"].
Definition p_x_y : PurePath := ["x"; "y"].

(** The registry after [mark_reserved "."; mark "."]. *)
Definition dot_marked : Report :=
  state_after ((mark_reserved p_dot ;; mark in_elements_order p_dot) init).

(** The report after [mark_reserved q; mark q; mark_reserved p]. *)
Definition one_marked_two_reserved (q p : PurePath) : Report :=
  {| reserved_files := {[p]} ∪ ({[q]} ∪ ∅); known_files := {[q]} ∪ ∅;
     new_files := ∅; changed_files := ∅; deleted_files := ∅ |}.

(** The paths marked while reserved are marked and reserved, and no two of
    them would make the loop of [mark] raise. *)
Definition conflict_free (st : Report * gset PurePath) : Prop :=
  st.2 ⊆ known_files st.1 ∩ reserved_files st.1
  ∧ ∀ p q, p ∈ st.2 → q ∈ st.2 → p ≠ q → collides p q = false.



(** [n] calls of the same method in a row. *)
Fixpoint times (n : nat) (m : M unit) : M unit :=
  match n with
  | 0 => mret ()
  | S n' => m ;; times n' m
  end.

(** The report after [mark_reserved p; mark p] on a fresh report. *)
Definition reserved_and_marked (p : PurePath) : Report :=
  {| reserved_files := {[p]} ∪ ∅; known_files := {[p]} ∪ ∅;
     new_files := ∅; changed_files := ∅; deleted_files := ∅ |}.

(** The report after [mark x; mark_reserved p] on a fresh report. *)
Definition marked_unreserved (x p : PurePath) : Report :=
  {| reserved_files := {[p]} ∪ ∅; known_files := {[x]} ∪ ∅;
     new_files := ∅; changed_files := ∅; deleted_files := ∅ |}.

(** Two paths marked without reservation and reserved afterwards. *)
Definition reserved_late : Report :=
  state_after ((mark in_elements_order p_a_b ;; mark in_elements_order p_a_b_c ;;
                mark_reserved p_a_b ;; mark_reserved p_a_b_c) init).

(** ** Whole sessions *)

(** The report a caller is left with after a sequence of calls, starting
    from any report. *)
Definition perform_all (calls : list Call) (self : Report) : Report :=
  foldl (λ s c, perform c s) self calls.

(** The arguments of the calls of each method in a session, in order. *)
Definition reserved_paths (calls : list Call) : list PurePath :=
  omap (λ c, match c with call_mark_reserved p => Some p | _ => None end) calls.
Definition mark_paths (calls : list Call) : list PurePath :=
  omap (λ c, match c with call_mark _ p => Some p | _ => None end) calls.
Definition added_paths (calls : list Call) : list PurePath :=
  omap (λ c, match c with call_add_file p => Some p | _ => None end) calls.
Definition changed_paths (calls : list Call) : list PurePath :=
  omap (λ c, match c with call_change_file p => Some p | _ => None end) calls.
Definition deleted_paths (calls : list Call) : list PurePath :=
  omap (λ c, match c with call_delete_file p => Some p | _ => None end) calls.

(** A session in which every [mark path] comes after a
    [mark_reserved path]; [reserved] are the paths reserved so far. *)
Fixpoint disciplined_from (reserved : gset PurePath) (calls : list Call) : bool :=
  match calls with
  | [] => true
  | call_mark_reserved p :: calls' => disciplined_from ({[p]} ∪ reserved) calls'
  | call_mark _ p :: calls' =>
      bool_decide (p ∈ reserved) && disciplined_from reserved calls'
  | _ :: calls' => disciplined_from reserved calls'
  end.

(** [for p in paths: report.mark_reserved(p); report.mark(p)] *)
Definition reserve_and_mark_all (it : iteration) (paths : list PurePath) : M unit :=
  for_each paths (λ p, mark_reserved p ;; mark it p).

(** No two paths of the list, at different positions, would make the loop of
    [mark] raise. *)
Fixpoint unrelated (paths : list PurePath) : bool :=
  match paths with
  | [] => true
  | p :: rest => forallb (λ q, negb (collides p q)) rest && unrelated rest
  end.

(** A session with a failed [mark] in the middle. *)
Definition busy_session : list Call :=
  [call_mark_reserved p_a_b; call_mark in_elements_order p_a_b;
   call_mark_reserved p_a_b_c; call_mark in_elements_order p_a_b_c;
   call_add_file p_x; call_delete_file p_x_y; call_change_file p_x;
   call_mark_reserved p_a_c; call_mark in_reverse_order p_a_c;
   call_marked p_a_c].

(** ** Trying the model *)

Example relative_to_child : relative_to p_a_b_c p_a_b = Some ["c"].
Proof. reflexivity. Qed.

Example relative_to_sibling : relative_to p_a_c p_a_b = None.
Proof. reflexivity. Qed.

Example relative_to_dot : relative_to p_a_b p_dot = Some p_a_b.
Proof. reflexivity. Qed.

Example relative_to_dot_anchored : relative_to p_abs_a p_dot = None.
Proof. reflexivity. Qed.

Example relative_to_root : relative_to p_abs_a ["/"] = Some ["a"].
Proof. reflexivity. Qed.

Example mark_twice_reserved :
  outcome ((mark_reserved p_a_b ;; mark in_elements_order p_a_b ;;
            mark in_elements_order p_a_b) init)
  = Raise (MarkDuplicateException p_a_b).
Proof. vm_compute. reflexivity. Qed.

Example mark_siblings :
  outcome ((mark_reserved p_a_b ;; mark in_elements_order p_a_b ;;
            mark_reserved p_a_c ;; mark in_reverse_order p_a_c) init)
  = Return ().
Proof. vm_compute. reflexivity. Qed.

(** ** [relative_to] and prefixes of parts *)

Lemma truthy_root_cons s p :
  truthy (_root (s :: p)) = bool_decide (s = "/") || bool_decide (s = "//").
Proof.
  unfold truthy, _root.
  destruct (bool_decide_reflect (s = "/")) as [->|]; [done|].
  destruct (bool_decide_reflect (s = "//")) as [->|]; done.
Qed.

Lemma abs_parts_anchored p : anchored p = true → abs_parts p = "" :: p.
Proof.
  unfold anchored, abs_parts. intros H. rewrite H.
  destruct p as [|s p]; [done|].
  rewrite truthy_root_cons in H. unfold _root, _drv. rewrite H.
  simpl. by rewrite drop_0.
Qed.

Lemma abs_parts_unanchored p : anchored p = false → abs_parts p = p.
Proof. unfold anchored, abs_parts. by intros ->. Qed.

Lemma anchored_prefix a b :
  a ≠ [] → a `prefix_of` b → anchored b = anchored a.
Proof.
  intros Ha [k ->]. destruct a as [|s a]; [done|].
  unfold anchored. change ((s :: a) ++ k)%list with (s :: (a ++ k)%list).
  by rewrite !truthy_root_cons.
Qed.

Lemma is_relative_to_eq a b :
  is_relative_to a b =
    if bool_decide (length (abs_parts b) = 0) then negb (anchored a)
    else bool_decide (take (length (abs_parts b)) (abs_parts a) = abs_parts b).
Proof.
  unfold is_relative_to, relative_to, casefold_parts, anchored, _drv.
  change (truthy "") with false. rewrite orb_false_r.
  destruct (bool_decide (length (abs_parts b) = 0)).
  - by destruct (truthy (_root a)).
  - by destruct (bool_decide (take _ _ = _)).
Qed.

Lemma abs_parts_nil p : length (abs_parts p) = 0 → p = [].
Proof.
  intros H%length_zero_iff_nil. revert H.
  destruct (anchored p) eqn:E.
  - by rewrite abs_parts_anchored.
  - by rewrite abs_parts_unanchored.
Qed.

Lemma take_length_prefix {A} (k l : list A) :
  take (length k) l = k ↔ k `prefix_of` l.
Proof.
  split.
  - intros H. exists (drop (length k) l). by rewrite <- H at 1; rewrite take_drop.
  - intros [m ->]. by rewrite take_app_length.
Qed.

Lemma is_relative_to_refl p : is_relative_to p p = true.
Proof.
  rewrite is_relative_to_eq.
  destruct (bool_decide_reflect (length (abs_parts p) = 0)) as [H|H].
  - apply abs_parts_nil in H. subst p. reflexivity.
  - apply bool_decide_eq_true. by rewrite firstn_all.
Qed.

(** A prefix of the parts is recognised by [relative_to], except the
    empty path under an anchored one. *)
Lemma is_relative_to_prefix a b :
  b `prefix_of` a → ¬ (b = [] ∧ anchored a = true) → is_relative_to a b = true.
Proof.
  intros Hpre Hcorner. rewrite is_relative_to_eq.
  destruct (bool_decide_reflect (length (abs_parts b) = 0)) as [H|H].
  - apply abs_parts_nil in H.
    destruct (anchored a); [|done]. by destruct Hcorner.
  - assert (b ≠ []) as Hb by (intros ->; by apply H).
    apply bool_decide_eq_true, take_length_prefix.
    pose proof (anchored_prefix _ _ Hb Hpre) as Heq.
    destruct (anchored b) eqn:E.
    + rewrite (abs_parts_anchored a), (abs_parts_anchored b) by congruence.
      by apply prefix_cons.
    + by rewrite (abs_parts_unanchored a), (abs_parts_unanchored b) by congruence.
Qed.

Lemma valid_head_nonempty s p : valid (s :: p) = true → s ≠ "".
Proof.
  intros H ->. simpl in H. by vm_compute in H.
Qed.

(** On values of [PurePath], [relative_to] recognises nothing else. *)
Lemma is_relative_to_valid a b :
  valid a = true → valid b = true → is_relative_to a b = true →
  b `prefix_of` a ∧ ¬ (b = [] ∧ anchored a = true).
Proof.
  intros Va Vb. rewrite is_relative_to_eq.
  destruct (bool_decide_reflect (length (abs_parts b) = 0)) as [H|H].
  - apply abs_parts_nil in H. subst b.
    intros Ha. split; [apply prefix_nil|]. intros [_ E]. by rewrite E in Ha.
  - intros Ht. apply bool_decide_eq_true, take_length_prefix in Ht.
    assert (b ≠ []) as Hb by (intros ->; by apply H).
    destruct (anchored a) eqn:Ea, (anchored b) eqn:Eb;
      rewrite ?(abs_parts_anchored a), ?(abs_parts_anchored b),
        ?(abs_parts_unanchored a), ?(abs_parts_unanchored b) in Ht by done.
    + split; [by eapply prefix_cons_inv_2|]. by intros [? _].
    + destruct b as [|s b]; [done|]. destruct Ht as [k Hk].
      injection Hk as <- _. by apply valid_head_nonempty in Vb.
    + destruct a as [|s a].
      * destruct Ht as [k Hk]. discriminate.
      * destruct Ht as [k Hk]. injection Hk as -> _.
        by apply valid_head_nonempty in Va.
    + split; [done|]. intros [_ ?]. congruence.
Qed.

(** ** The loop of [mark] *)

Lemma elem_of_iter (it : iteration) (s : gset PurePath) x : x ∈ iter it s ↔ x ∈ s.
Proof. by rewrite (iter_perm it s), elem_of_elements. Qed.

Lemma mark_check_eq path other self :
  mark_check path other self =
    if bool_decide (path = other)
    then (self, Raise (MarkDuplicateException path))
    else if is_relative_to path other || is_relative_to other path
         then (self, Raise (MarkConflictException path other))
         else (self, Return ()).
Proof.
  unfold mark_check.
  destruct (bool_decide (path = other)); [done|].
  by destruct (is_relative_to path other || is_relative_to other path).
Qed.

Lemma for_each_cons {A} (x : A) xs body self :
  for_each (x :: xs) body self =
    match body x self with
    | (self', Return _) => for_each xs body self'
    | (self', Raise e) => (self', Raise e)
    end.
Proof. reflexivity. Qed.

(** The loop reads the state and never writes it. *)
Lemma for_each_check_state others path self :
  state_after (for_each others (mark_check path) self) = self.
Proof.
  induction others as [|other others IH]; [done|].
  rewrite for_each_cons, mark_check_eq.
  destruct (bool_decide (path = other)); [done|].
  by destruct (is_relative_to path other || is_relative_to other path).
Qed.

Lemma collides_false path other :
  collides path other = false ↔
  path ≠ other ∧ is_relative_to path other = false
  ∧ is_relative_to other path = false.
Proof.
  unfold collides. rewrite !orb_false_iff, bool_decide_eq_false. tauto.
Qed.

Lemma for_each_check_return others path self :
  outcome (for_each others (mark_check path) self) = Return ()
  ↔ ∀ other, other ∈ others → collides path other = false.
Proof.
  induction others as [|other others IH].
  - split; [|done]. intros _ other Hin. by apply elem_of_nil in Hin.
  - rewrite for_each_cons, mark_check_eq. unfold collides at 1.
    setoid_rewrite elem_of_cons.
    destruct (bool_decide_reflect (path = other)) as [Heq|Hne].
    { split; [done|]. intros H. specialize (H other (or_introl eq_refl)).
      apply collides_false in H. by destruct H. }
    destruct (is_relative_to path other || is_relative_to other path) eqn:Hrel.
    { split; [done|]. intros H. specialize (H other (or_introl eq_refl)).
      unfold collides in H. rewrite <- orb_assoc, Hrel, orb_true_r in H. done. }
    rewrite IH. split.
    + intros H x [->|Hx]; [|by apply H].
      unfold collides. rewrite <- orb_assoc, Hrel.
      by rewrite (bool_decide_eq_false_2 _ Hne).
    + intros H x Hx. apply H. by right.
Qed.

(** What the loop raises, and at which member. *)
Lemma for_each_check_raise others path self e :
  outcome (for_each others (mark_check path) self) = Raise e →
  ∃ other, other ∈ others ∧
    ((other = path ∧ e = MarkDuplicateException path)
     ∨ (other ≠ path
        ∧ is_relative_to path other || is_relative_to other path = true
        ∧ e = MarkConflictException path other)).
Proof.
  induction others as [|other others IH]; [done|].
  rewrite for_each_cons, mark_check_eq.
  destruct (bool_decide_reflect (path = other)) as [Heq|Hne].
  { intros [= <-]. exists other. split; [apply elem_of_cons; by left|]. by left. }
  destruct (is_relative_to path other || is_relative_to other path) eqn:Hrel.
  { intros [= <-]. exists other. split; [apply elem_of_cons; by left|].
    right. by repeat split. }
  intros H. destruct (IH H) as (x & Hx & Hcase).
  exists x. split; [apply elem_of_cons; by right|done].
Qed.

(** ** [mark] in one step *)

Lemma mark_eq (it : iteration) path self :
  mark it path self =
    match for_each (iter it (known_files self ∩ reserved_files self))
            (mark_check path) self with
    | (self', Return _) => (with_known path self', Return ())
    | (self', Raise e) => (self', Raise e)
    end.
Proof.
  unfold mark, get, update, with_known, mbind, M_bind.
  by destruct (for_each _ _ self) as [self' [[]|e]].
Qed.

Lemma mark_returns (it : iteration) path self :
  (∀ other, other ∈ known_files self ∩ reserved_files self →
            collides path other = false) →
  mark it path self = (with_known path self, Return ()).
Proof.
  intros H. rewrite mark_eq.
  pose proof (for_each_check_state
    (iter it (known_files self ∩ reserved_files self)) path self) as Hst.
  assert (outcome (for_each (iter it (known_files self ∩ reserved_files self))
            (mark_check path) self) = Return ()) as Hout.
  { apply for_each_check_return. intros other Hin. apply H.
    by apply elem_of_iter in Hin. }
  destruct (for_each _ _ self) as [self' o]. simpl in *. by subst.
Qed.

Lemma mark_return_inv (it : iteration) path self :
  outcome (mark it path self) = Return () →
  ∀ other, other ∈ known_files self ∩ reserved_files self →
           collides path other = false.
Proof.
  rewrite mark_eq. intros H other Hin.
  apply (proj1 (for_each_check_return
    (iter it (known_files self ∩ reserved_files self)) path self)).
  - by destruct (for_each _ _ self) as [self' [[]|e]].
  - by apply elem_of_iter.
Qed.

Lemma mark_raises (it : iteration) path self e :
  outcome (mark it path self) = Raise e →
  state_after (mark it path self) = self ∧
  ∃ other, other ∈ known_files self ∩ reserved_files self ∧
    ((other = path ∧ e = MarkDuplicateException path)
     ∨ (other ≠ path
        ∧ is_relative_to path other || is_relative_to other path = true
        ∧ e = MarkConflictException path other)).
Proof.
  rewrite mark_eq.
  pose proof (for_each_check_state
    (iter it (known_files self ∩ reserved_files self)) path self) as Hst.
  pose proof (for_each_check_raise
    (iter it (known_files self ∩ reserved_files self)) path self e) as Hr.
  destruct (for_each _ _ self) as [self' [[]|e']]; [done|].
  simpl in *. intros [= ->]. split; [done|].
  destruct (Hr eq_refl) as (other & Hin & Hcase).
  exists other. split; [by apply elem_of_iter in Hin|done].
Qed.

(** [mark] returns or raises; it has no third way out. *)
Lemma mark_outcome_cases (it : iteration) path self :
  (∀ other, other ∈ known_files self ∩ reserved_files self →
            collides path other = false)
  ∨ ∃ e, outcome (mark it path self) = Raise e.
Proof.
  destruct (outcome (mark it path self)) as [[]|e] eqn:E.
  - left. by apply (mark_return_inv it).
  - right. by exists e.
Qed.

(** ** Walking over tiny sets *)

Lemma iter_empty (it : iteration) : iter it ∅ = [].
Proof. apply Permutation_nil_r. by rewrite (iter_perm it ∅), elements_empty. Qed.

Lemma iter_singleton (it : iteration) x : iter it {[x]} = [x].
Proof.
  apply Permutation_singleton_r. by rewrite (iter_perm it {[x]}), elements_singleton.
Qed.

Lemma mark_nothing_to_check (it : iteration) path self :
  known_files self ∩ reserved_files self = ∅ →
  mark it path self = (with_known path self, Return ()).
Proof.
  intros H. apply mark_returns. intros other. rewrite H. set_solver.
Qed.

Lemma mark_one_to_check (it : iteration) path other self :
  known_files self ∩ reserved_files self = {[other]} →
  mark it path self =
    if bool_decide (path = other)
    then (self, Raise (MarkDuplicateException path))
    else if is_relative_to path other || is_relative_to other path
         then (self, Raise (MarkConflictException path other))
         else (with_known path self, Return ()).
Proof.
  intros H. rewrite mark_eq, H, iter_singleton, for_each_cons, mark_check_eq.
  destruct (bool_decide (path = other)); [done|].
  by destruct (is_relative_to path other || is_relative_to other path).
Qed.

(** ** The two readings of "ancestor" *)

Lemma is_ancestor_true a b :
  is_ancestor a b = true ↔ a `prefix_of` b ∧ a ≠ b.
Proof.
  unfold is_ancestor. rewrite andb_true_iff, !bool_decide_eq_true. split.
  - intros [Hpre Hlen]. split; [done|]. intros ->. lia.
  - intros [Hpre Hne]. split; [done|].
    pose proof (prefix_length _ _ Hpre) as Hle.
    destruct (decide (length a < length b)) as [|Hge]; [done|].
    destruct Hne. apply prefix_length_eq; [done|lia].
Qed.

Lemma is_pathlib_ancestor_true a b :
  is_pathlib_ancestor a b = true ↔
  is_ancestor a b = true ∧ ¬ (a = [] ∧ anchored b = true).
Proof.
  unfold is_pathlib_ancestor. rewrite andb_true_iff, negb_true_iff, andb_false_iff.
  rewrite bool_decide_eq_false.
  destruct (anchored b), (decide (a = [])); naive_solver.
Qed.

Lemma is_pathlib_ancestor_relative a b :
  is_pathlib_ancestor a b = true → is_relative_to b a = true.
Proof.
  intros [[Hpre _]%is_ancestor_true Hc]%is_pathlib_ancestor_true.
  by apply is_relative_to_prefix.
Qed.

Lemma is_relative_to_iff a b :
  valid a = true → valid b = true →
  is_relative_to a b = true ↔ a = b ∨ is_pathlib_ancestor b a = true.
Proof.
  intros Va Vb. split.
  - intros [Hpre Hc]%is_relative_to_valid; [|done..].
    destruct (decide (a = b)) as [|Hne]; [by left|right].
    apply is_pathlib_ancestor_true. split; [|done].
    apply is_ancestor_true. split; [done|congruence].
  - intros [->|H]; [apply is_relative_to_refl|].
    by apply is_pathlib_ancestor_relative.
Qed.

Lemma collides_false_valid path other :
  valid path = true → valid other = true →
  collides path other = false ↔
  other ≠ path ∧ is_pathlib_ancestor other path = false
  ∧ is_pathlib_ancestor path other = false.
Proof.
  intros Vp Vo. rewrite collides_false.
  rewrite <- !not_true_iff_false.
  rewrite (is_relative_to_iff path other), (is_relative_to_iff other path) by done.
  naive_solver.
Qed.

(** ** Claims about [mark] *)

(** C1, as stated, fails: with ["."] reserved and marked,
    [mark "/a"] returns although the segments of ["."] are a proper prefix
    of those of ["/a"]. *)
Lemma mark_succeeds_iff_no_ancestor_counterexample :
  ¬ (outcome (mark in_elements_order p_abs_a dot_marked) = Return ()
     ↔ ∀ other, other ∈ known_files dot_marked ∩ reserved_files dot_marked →
         other ≠ p_abs_a ∧ is_ancestor other p_abs_a = false
         ∧ is_ancestor p_abs_a other = false).
Proof.
  intros [H _]. specialize (H eq_refl p_dot).
  assert (p_dot ∈ known_files dot_marked ∩ reserved_files dot_marked) as Hin.
  { vm_compute. reflexivity. }
  destruct (H Hin) as (_ & Habs & _). vm_compute in Habs. discriminate.
Qed.

(** C1 (amended), for paths of the POSIX flavour: on values of
    [PurePosixPath], [mark path] returns exactly when
    no member of [known_files ∩ reserved_files] equals [path] or is, in the
    sense of [relative_to] (the empty path is above unanchored paths only),
    an ancestor or a descendant of it; when it returns, [path] has been added
    to [known_files], nothing else has changed and [marked path] is [True].
    On a fresh report, [mark_reserved path; mark path] returns and
    [marked path] is [True]. *)
Theorem mark_succeeds_iff (it : iteration) (path : PurePath) (self : Report) :
  valid path = true → valid_report self →
  (outcome (mark it path self) = Return ()
   ↔ ∀ other, other ∈ known_files self ∩ reserved_files self →
       other ≠ path ∧ is_pathlib_ancestor other path = false
       ∧ is_pathlib_ancestor path other = false)
  ∧ (outcome (mark it path self) = Return () →
     state_after (mark it path self) = with_known path self
     ∧ known_files (state_after (mark it path self)) = {[path]} ∪ known_files self
     ∧ outcome (marked path (state_after (mark it path self))) = Return true)
  ∧ (outcome ((mark_reserved path ;; mark it path) init) = Return ()
     ∧ outcome (marked path
         (state_after ((mark_reserved path ;; mark it path) init))) = Return true).
Proof.
  intros Vp Vr. split; [|split].
  - split.
    + intros H other Hin. apply collides_false_valid; [done|by apply Vr|].
      by apply (mark_return_inv it path self).
    + intros H. rewrite mark_returns; [done|].
      intros other Hin. apply collides_false_valid; [done|by apply Vr|by apply H].
  - intros H. rewrite mark_returns by (by apply (mark_return_inv it)).
    repeat split. unfold marked, get, outcome. simpl.
    f_equal. apply bool_decide_eq_true. set_solver.
  - assert ((mark_reserved path ;; mark it path) init
            = (with_known path (state_after (mark_reserved path init)), Return ()))
      as ->.
    { unfold mbind, M_bind. simpl. apply mark_nothing_to_check. simpl. set_solver. }
    split; [done|]. unfold marked, get, outcome. simpl.
    f_equal. apply bool_decide_eq_true. set_solver.
Qed.

Lemma mark_succeeds_iff_witness :
  valid p_a_c = true
  ∧ valid_report
      (state_after ((mark_reserved p_a_b ;; mark in_elements_order p_a_b) init))
  ∧ outcome (mark in_elements_order p_a_c
       (state_after ((mark_reserved p_a_b ;; mark in_elements_order p_a_b) init)))
    = Return ().
Proof.
  assert (∀ p, p ∈ ({[p_a_b]} ∪ ∅ : gset PurePath) ∩ ({[p_a_b]} ∪ ∅) → p = p_a_b)
    as Hone by set_solver.
  assert (valid_report
    (state_after ((mark_reserved p_a_b ;; mark in_elements_order p_a_b) init)))
    as Hv.
  { intros p Hp. apply Hone in Hp. subst p. reflexivity. }
  split; [reflexivity|]. split; [exact Hv|].
  destruct (mark_succeeds_iff in_elements_order p_a_c _ eq_refl Hv) as [[_ H] _].
  apply H. intros other Hin. apply Hone in Hin. subst other.
  split; [discriminate|]. split; reflexivity.
Defined.

(** ** Sequences of calls from a fresh report *)

Lemma bind_return {A B} (m : M A) (f : A → M B) self self' a :
  m self = (self', Return a) → (m ≫= f) self = f a self'.
Proof. unfold mbind, M_bind. by intros ->. Qed.

Lemma reserve_mark_reserve (it : iteration) q p :
  (mark_reserved q ;; mark it q ;; mark_reserved p) init
  = (one_marked_two_reserved q p, Return ()).
Proof.
  rewrite (bind_return _ _ init (state_after (mark_reserved q init)) ())
    by reflexivity.
  rewrite (bind_return (mark it q) _ _
             (with_known q (state_after (mark_reserved q init))) ())
    by (apply mark_nothing_to_check; simpl; set_solver).
  reflexivity.
Qed.

Lemma reserve_mark_reserve_mark (it1 it2 : iteration) q p :
  (mark_reserved q ;; mark it1 q ;; mark_reserved p ;; mark it2 p) init
  = mark it2 p (one_marked_two_reserved q p).
Proof.
  rewrite (bind_return _ _ init (state_after (mark_reserved q init)) ())
    by reflexivity.
  rewrite (bind_return (mark it1 q) _ _
             (with_known q (state_after (mark_reserved q init))) ())
    by (apply mark_nothing_to_check; simpl; set_solver).
  reflexivity.
Qed.

Lemma one_marked_two_reserved_check q p :
  known_files (one_marked_two_reserved q p)
  ∩ reserved_files (one_marked_two_reserved q p) = {[q]}.
Proof. simpl. set_solver. Qed.

(** C2, as stated, fails: the segments of ["."] are a proper prefix of
    those of ["/a"], yet after [mark_reserved "."; mark "."] the calls
    [mark_reserved "/a"; mark "/a"] return, and so do the four calls in the
    other order. *)
Lemma ancestor_conflict_counterexample :
  p_abs_a ≠ p_dot ∧ is_ancestor p_dot p_abs_a = true
  ∧ valid p_dot = true ∧ valid p_abs_a = true
  ∧ outcome ((mark_reserved p_dot ;; mark in_elements_order p_dot ;;
              mark_reserved p_abs_a ;; mark in_elements_order p_abs_a) init)
    = Return ()
  ∧ outcome ((mark_reserved p_abs_a ;; mark in_elements_order p_abs_a ;;
              mark_reserved p_dot ;; mark in_elements_order p_dot) init)
    = Return ().
Proof. repeat split; [discriminate|vm_compute; reflexivity..]. Qed.

(** C2 (amended), for paths of the POSIX flavour: when [q] is a strict
    ancestor of [p] that [relative_to]
    recognises (its parts are a proper prefix of those of [p], and [q] is not
    the empty path under an anchored [p]), then from a fresh report
    [mark_reserved q; mark q; mark_reserved p] return and [mark p] raises
    [MarkConflictException(p, q)]; in the other order
    [mark_reserved p; mark p; mark_reserved q] return and [mark q] raises
    [MarkConflictException(q, p)]. *)
Theorem ancestor_conflict (it1 it2 : iteration) (p q : PurePath) :
  is_pathlib_ancestor q p = true →
  (outcome ((mark_reserved q ;; mark it1 q ;; mark_reserved p) init) = Return ()
   ∧ outcome ((mark_reserved q ;; mark it1 q ;; mark_reserved p ;; mark it2 p) init)
     = Raise (MarkConflictException p q))
  ∧ (outcome ((mark_reserved p ;; mark it1 p ;; mark_reserved q) init) = Return ()
     ∧ outcome ((mark_reserved p ;; mark it1 p ;; mark_reserved q ;; mark it2 q) init)
       = Raise (MarkConflictException q p)).
Proof.
  intros Hanc.
  pose proof (is_pathlib_ancestor_relative _ _ Hanc) as Hrel.
  apply is_pathlib_ancestor_true in Hanc as [[_ Hne]%is_ancestor_true _].
  rewrite !reserve_mark_reserve, !reserve_mark_reserve_mark.
  rewrite (mark_one_to_check it2 p q), (mark_one_to_check it2 q p)
    by apply one_marked_two_reserved_check.
  rewrite (bool_decide_eq_false_2 (p = q)), (bool_decide_eq_false_2 (q = p))
    by congruence.
  by rewrite Hrel, orb_true_r.
Qed.

Lemma ancestor_conflict_witness :
  is_pathlib_ancestor p_a_b p_a_b_c = true
  ∧ outcome ((mark_reserved p_a_b ;; mark in_elements_order p_a_b ;;
              mark_reserved p_a_b_c ;; mark in_reverse_order p_a_b_c) init)
    = Raise (MarkConflictException p_a_b_c p_a_b).
Proof.
  split; [reflexivity|].
  apply (ancestor_conflict in_elements_order in_reverse_order p_a_b_c p_a_b).
  reflexivity.
Defined.

(** ** The history of a session *)

Lemma collides_sym a b : collides a b = collides b a.
Proof.
  unfold collides. rewrite <- !orb_assoc.
  rewrite (orb_comm (is_relative_to a b)). f_equal.
  apply bool_decide_ext. split; congruence.
Qed.

Lemma mark_state (it : iteration) path self :
  state_after (mark it path self) =
    match outcome (mark it path self) with
    | Return _ => with_known path self
    | Raise _ => self
    end.
Proof.
  destruct (outcome (mark it path self)) as [[]|e] eqn:E.
  - by rewrite mark_returns by (by apply (mark_return_inv it)).
  - by apply mark_raises in E as [-> _].
Qed.

(** Nothing is ever taken out of the two sets [mark] reads. *)
Lemma perform_monotone c self :
  known_files self ⊆ known_files (perform c self)
  ∧ reserved_files self ⊆ reserved_files (perform c self).
Proof.
  destruct c as [path|it path|path|path|path|path]; simpl;
    try (split; set_solver).
  rewrite mark_state. destruct (outcome (mark it path self)); simpl; set_solver.
Qed.

Lemma conflict_free_init : conflict_free (init, ∅).
Proof. split; simpl; set_solver. Qed.

Lemma conflict_free_step st c : conflict_free st → conflict_free (step st c).
Proof.
  destruct st as [self seen]. intros [Hsub Hfree]. simpl in *.
  pose proof (perform_monotone c self) as [Hk Hr].
  assert (seen ⊆ known_files (perform c self) ∩ reserved_files (perform c self))
    as Hsub' by set_solver.
  unfold step. simpl.
  destruct c as [path|it path|path|path|path|path]; try (by split).
  unfold marked_while_reserved.
  destruct (outcome (mark it path self)) as [[]|e] eqn:E; [|by split].
  destruct (bool_decide_reflect (path ∈ reserved_files self)) as [Hin|]; [|by split].
  pose proof (mark_return_inv it path self E) as Hnone.
  split.
  - simpl in *. rewrite mark_state, E in *. simpl in *. set_solver.
  - simpl. intros p q [->%elem_of_singleton|Hp]%elem_of_union
               [->%elem_of_singleton|Hq]%elem_of_union Hne.
    + done.
    + apply Hnone. set_solver.
    + rewrite collides_sym. apply Hnone. set_solver.
    + by apply Hfree.
Qed.

Lemma conflict_free_foldl calls st :
  conflict_free st → conflict_free (foldl step st calls).
Proof.
  revert st. induction calls as [|c calls IH]; intros st Hst; [done|].
  simpl. by apply IH, conflict_free_step.
Qed.




(** ** A failed [mark] *)

(** C4: a call of [mark] that raises, whichever of the two exceptions,
    leaves the report as it found it: [known_files] (so [path] is not added),
    [reserved_files] and the three outcome sets are unchanged, and every later
    call behaves as it would have without the failed call. *)
Theorem failed_mark_changes_nothing
    (it : iteration) (path : PurePath) (self : Report) (e : Exception) :
  outcome (mark it path self) = Raise e →
  state_after (mark it path self) = self
  ∧ known_files (state_after (mark it path self)) = known_files self
  ∧ reserved_files (state_after (mark it path self)) = reserved_files self
  ∧ new_files (state_after (mark it path self)) = new_files self
  ∧ changed_files (state_after (mark it path self)) = changed_files self
  ∧ deleted_files (state_after (mark it path self)) = deleted_files self
  ∧ (e = MarkDuplicateException path
     ∨ ∃ other, e = MarkConflictException path other)
  ∧ (∀ c, perform c (perform (call_mark it path) self) = perform c self)
  ∧ (∀ it' path', mark it' path' (state_after (mark it path self))
                  = mark it' path' self).
Proof.
  intros H. destruct (mark_raises it path self e H) as (Hst & other & _ & Hcase).
  simpl. rewrite Hst. repeat split.
  destruct Hcase as [[_ ->]|(_ & _ & ->)]; [by left|right; by exists other].
Qed.

Lemma failed_mark_changes_nothing_witness :
  outcome (mark in_reverse_order p_a_b (reserved_and_marked p_a_b))
    = Raise (MarkDuplicateException p_a_b)
  ∧ state_after (mark in_reverse_order p_a_b (reserved_and_marked p_a_b))
    = reserved_and_marked p_a_b.
Proof.
  assert (outcome (mark in_reverse_order p_a_b (reserved_and_marked p_a_b))
          = Raise (MarkDuplicateException p_a_b)) as H by (vm_compute; reflexivity).
  split; [exact H|].
  apply (failed_mark_changes_nothing in_reverse_order p_a_b
           (reserved_and_marked p_a_b) (MarkDuplicateException p_a_b) H).
Defined.

(** ** Paths that are known but not reserved *)

(** C5: a path that is known but not reserved takes no part in the check.
    From a fresh report, [mark x] (never reserving [x]) and [mark_reserved p]
    return and leave [x] in [known_files] and out of [reserved_files]; then
    [mark p] returns and adds [p] to [known_files], for every [p] of which [x]
    is a strict ancestor, as ["x"] is of ["x/y"]. *)
Theorem unreserved_ancestor_ignored (it1 it2 : iteration) (x p : PurePath) :
  is_ancestor x p = true →
  (mark it1 x ;; mark_reserved p) init = (marked_unreserved x p, Return ())
  ∧ x ∈ known_files (marked_unreserved x p)
  ∧ ¬ (x ∈ reserved_files (marked_unreserved x p))
  ∧ ¬ (x ∈ known_files (marked_unreserved x p)
           ∩ reserved_files (marked_unreserved x p))
  ∧ mark it2 p (marked_unreserved x p)
    = (with_known p (marked_unreserved x p), Return ())
  ∧ outcome ((mark it1 x ;; mark_reserved p ;; mark it2 p) init) = Return ()
  ∧ outcome (marked p (state_after
       ((mark it1 x ;; mark_reserved p ;; mark it2 p) init))) = Return true.
Proof.
  intros [_ Hne]%is_ancestor_true.
  assert ((mark it1 x ;; mark_reserved p) init = (marked_unreserved x p, Return ()))
    as Hfirst.
  { rewrite (bind_return (mark it1 x) _ init (with_known x init) ())
      by (apply mark_nothing_to_check; simpl; set_solver).
    reflexivity. }
  assert (mark it2 p (marked_unreserved x p)
          = (with_known p (marked_unreserved x p), Return ())) as Hsecond.
  { apply mark_nothing_to_check. simpl. set_solver. }
  assert ((mark it1 x ;; mark_reserved p ;; mark it2 p) init
          = (with_known p (marked_unreserved x p), Return ())) as Hall.
  { rewrite (bind_return (mark it1 x) _ init (with_known x init) ())
      by (apply mark_nothing_to_check; simpl; set_solver).
    rewrite (bind_return (mark_reserved p) _ (with_known x init)
               (marked_unreserved x p) ()) by reflexivity.
    exact Hsecond. }
  split; [exact Hfirst|]. split; [simpl; set_solver|]. split; [simpl; set_solver|].
  split; [simpl; set_solver|]. split; [exact Hsecond|]. rewrite Hall.
  split; [reflexivity|]. unfold marked, get, outcome. simpl.
  f_equal. apply bool_decide_eq_true. set_solver.
Qed.

Lemma unreserved_ancestor_ignored_witness :
  is_ancestor p_x p_x_y = true
  ∧ outcome ((mark in_elements_order p_x ;; mark_reserved p_x_y ;;
              mark in_reverse_order p_x_y) init) = Return ().
Proof.
  split; [reflexivity|].
  apply (unreserved_ancestor_ignored in_elements_order in_reverse_order p_x p_x_y).
  reflexivity.
Defined.

(** ** Marking the same path twice *)

Lemma reserve_mark (it : iteration) p :
  (mark_reserved p ;; mark it p) init = (reserved_and_marked p, Return ()).
Proof.
  rewrite (bind_return _ _ init (state_after (mark_reserved p init)) ())
    by reflexivity.
  apply mark_nothing_to_check. simpl. set_solver.
Qed.

(** C6: from a fresh report, [mark_reserved p; mark p] return; a second
    [mark p], with [p] still reserved, raises [MarkDuplicateException(p)] and
    leaves the report, [known_files] included, as the first [mark] left it,
    so [marked p] is [True] before and after. *)
Theorem duplicate_mark (it1 it2 : iteration) (p : PurePath) :
  (mark_reserved p ;; mark it1 p) init = (reserved_and_marked p, Return ())
  ∧ mark it2 p (reserved_and_marked p)
    = (reserved_and_marked p, Raise (MarkDuplicateException p))
  ∧ (mark_reserved p ;; mark it1 p ;; mark it2 p) init
    = (reserved_and_marked p, Raise (MarkDuplicateException p))
  ∧ marked p (reserved_and_marked p) = (reserved_and_marked p, Return true)
  ∧ marked p (state_after (mark it2 p (reserved_and_marked p)))
    = (reserved_and_marked p, Return true).
Proof.
  assert (mark it2 p (reserved_and_marked p)
          = (reserved_and_marked p, Raise (MarkDuplicateException p))) as Hsecond.
  { rewrite (mark_one_to_check it2 p p) by (simpl; set_solver).
    by rewrite bool_decide_eq_true_2. }
  assert (marked p (reserved_and_marked p) = (reserved_and_marked p, Return true))
    as Hmarked.
  { unfold marked, get. do 2 f_equal. apply bool_decide_eq_true. simpl. set_solver. }
  split; [apply reserve_mark|]. split; [exact Hsecond|]. split.
  - rewrite (bind_return _ _ init (state_after (mark_reserved p init)) ())
      by reflexivity.
    rewrite (bind_return (mark it1 p) _ _ (reserved_and_marked p) ())
      by (apply mark_nothing_to_check; simpl; set_solver).
    exact Hsecond.
  - split; [exact Hmarked|]. rewrite Hsecond. exact Hmarked.
Qed.

(** ** [mark_reserved] *)

Lemma mark_reserved_again path self :
  path ∈ reserved_files self → state_after (mark_reserved path self) = self.
Proof.
  intros Hin. destruct self as [R K N C D]. simpl in *.
  f_equal. set_solver.
Qed.

Lemma times_mark_reserved n path self :
  times (S n) (mark_reserved path) self = mark_reserved path self.
Proof.
  revert self. induction n as [|n IH]; intros self.
  - reflexivity.
  - change (times (S (S n)) (mark_reserved path) self)
      with (times (S n) (mark_reserved path) (state_after (mark_reserved path self))).
    rewrite IH. unfold mark_reserved, update. simpl. do 2 f_equal. set_solver.
Qed.

(** C7: [mark_reserved] always returns, and calling it [N ≥ 1] times in a
    row with the same path leaves exactly the report one call leaves; on a
    path already reserved the call changes nothing; it adds the path to
    [reserved_files] and never touches [known_files] or the three outcome
    sets. *)
Theorem mark_reserved_idempotent (path : PurePath) (self : Report) (N : nat) :
  (1 ≤ N)%nat →
  outcome (mark_reserved path self) = Return ()
  ∧ times N (mark_reserved path) self = mark_reserved path self
  ∧ (path ∈ reserved_files self → mark_reserved path self = (self, Return ()))
  ∧ reserved_files (state_after (mark_reserved path self))
    = {[path]} ∪ reserved_files self
  ∧ known_files (state_after (mark_reserved path self)) = known_files self
  ∧ new_files (state_after (mark_reserved path self)) = new_files self
  ∧ changed_files (state_after (mark_reserved path self)) = changed_files self
  ∧ deleted_files (state_after (mark_reserved path self)) = deleted_files self.
Proof.
  intros HN. destruct N as [|n]; [lia|].
  split; [reflexivity|]. split; [apply times_mark_reserved|].
  split; [|by repeat split].
  intros Hin. rewrite <- (mark_reserved_again path self Hin) at 2. reflexivity.
Qed.

Lemma mark_reserved_idempotent_witness :
  (1 ≤ 3)%nat
  ∧ times 3 (mark_reserved p_a_b) (reserved_and_marked p_a_c)
    = mark_reserved p_a_b (reserved_and_marked p_a_c).
Proof.
  assert (1 ≤ 3)%nat as H by lia.
  split; [exact H|].
  apply (mark_reserved_idempotent p_a_b (reserved_and_marked p_a_c) 3 H).
Defined.

(** ** The three outcome sets *)

(** C8: [add_file], [change_file] and [delete_file] return for every path
    and every report, reserved or marked or not; each adds the path to its own
    set and leaves the four other sets alone; after all three calls with one
    path, the path is in all three outcome sets. *)
Theorem record_calls_frame (path : PurePath) (self : Report) :
  (add_file path self =
     ({| reserved_files := reserved_files self; known_files := known_files self;
         new_files := {[path]} ∪ new_files self;
         changed_files := changed_files self;
         deleted_files := deleted_files self |}, Return ()))
  ∧ (change_file path self =
     ({| reserved_files := reserved_files self; known_files := known_files self;
         new_files := new_files self;
         changed_files := {[path]} ∪ changed_files self;
         deleted_files := deleted_files self |}, Return ()))
  ∧ (delete_file path self =
     ({| reserved_files := reserved_files self; known_files := known_files self;
         new_files := new_files self;
         changed_files := changed_files self;
         deleted_files := {[path]} ∪ deleted_files self |}, Return ()))
  ∧ (add_file path ;; change_file path ;; delete_file path) self =
     ({| reserved_files := reserved_files self; known_files := known_files self;
         new_files := {[path]} ∪ new_files self;
         changed_files := {[path]} ∪ changed_files self;
         deleted_files := {[path]} ∪ deleted_files self |}, Return ())
  ∧ path ∈ new_files (state_after
      ((add_file path ;; change_file path ;; delete_file path) self))
  ∧ path ∈ changed_files (state_after
      ((add_file path ;; change_file path ;; delete_file path) self))
  ∧ path ∈ deleted_files (state_after
      ((add_file path ;; change_file path ;; delete_file path) self)).
Proof.
  do 4 (split; [reflexivity|]). simpl. set_solver.
Qed.

(** ** The order of the two tests in the loop *)

(** C9: [relative_to] is reflexive, but the loop of [mark] tests equality
    first: at the member equal to [path] it raises
    [MarkDuplicateException(path)].  So no call of [mark path] raises
    [MarkConflictException(path, path)]; when [path] is in
    [known_files ∩ reserved_files] the call raises, either
    [MarkDuplicateException(path)] or a conflict with another member, and when
    [path] is the only member it raises [MarkDuplicateException(path)]. *)
Theorem mark_self_is_duplicate (it : iteration) (path : PurePath) (self : Report) :
  is_relative_to path path = true
  ∧ mark_check path path self = (self, Raise (MarkDuplicateException path))
  ∧ (∀ e, outcome (mark it path self) = Raise e →
          e ≠ MarkConflictException path path)
  ∧ (path ∈ known_files self ∩ reserved_files self →
     ∃ e, mark it path self = (self, Raise e)
       ∧ (e = MarkDuplicateException path
          ∨ ∃ other, other ∈ known_files self ∩ reserved_files self
              ∧ other ≠ path ∧ e = MarkConflictException path other))
  ∧ (known_files self ∩ reserved_files self = {[path]} →
     mark it path self = (self, Raise (MarkDuplicateException path))).
Proof.
  split; [apply is_relative_to_refl|]. split.
  { rewrite mark_check_eq. by rewrite bool_decide_eq_true_2. }
  split.
  { intros e He ->. apply mark_raises in He as (_ & other & _ & Hcase).
    destruct Hcase as [[_ [=]]|(Hne & _ & [= <-])]. done. }
  split.
  - intros Hin.
    destruct (mark_outcome_cases it path self) as [Hnone|[e He]].
    { specialize (Hnone path Hin). apply collides_false in Hnone. by destruct Hnone. }
    exists e. destruct (mark_raises it path self e He) as (Hst & other & Ho & Hcase).
    split.
    + destruct (mark it path self) as [s o]. simpl in *. by subst.
    + destruct Hcase as [[_ ->]|(Hne & _ & ->)]; [by left|right].
      by exists other.
  - intros Hone. rewrite (mark_one_to_check it path path self Hone).
    by rewrite bool_decide_eq_true_2.
Qed.

Lemma mark_self_is_duplicate_witness :
  p_a_b ∈ known_files reserved_late ∩ reserved_files reserved_late
  ∧ ∃ e, mark in_reverse_order p_a_b reserved_late = (reserved_late, Raise e)
      ∧ (e = MarkDuplicateException p_a_b
         ∨ ∃ other, other ∈ known_files reserved_late ∩ reserved_files reserved_late
             ∧ other ≠ p_a_b ∧ e = MarkConflictException p_a_b other).
Proof.
  assert (p_a_b ∈ known_files reserved_late ∩ reserved_files reserved_late) as Hin
    by (vm_compute; reflexivity).
  split; [exact Hin|].
  destruct (mark_self_is_duplicate in_reverse_order p_a_b reserved_late)
    as (_ & _ & _ & H & _).
  exact (H Hin).
Defined.

(** With the path itself and a descendant both marked and reserved, the
    order of the walk decides which exception is raised. *)
Example order_decides_exception :
  outcome (mark in_reverse_order p_a_b reserved_late)
    = Raise (MarkDuplicateException p_a_b)
  ∧ outcome (mark in_elements_order p_a_b reserved_late)
    = Raise (MarkConflictException p_a_b p_a_b_c).
Proof. split; vm_compute; reflexivity. Qed.

(** ** Marking twice without a reservation *)

Lemma with_known_twice path self :
  with_known path (with_known path self) = with_known path self.
Proof. unfold with_known. simpl. f_equal. set_solver. Qed.

(** C10: on a fresh report, with [p] never reserved, [mark p] twice in a
    row returns twice, no [MarkDuplicateException], and the second call
    leaves the report, [known_files] included, as the first left it.  The same
    holds on any report in which [p] is not reserved, when the first call
    returns. *)
Theorem unreserved_double_mark (it1 it2 : iteration) (p : PurePath) (self : Report) :
  mark it1 p init = (with_known p init, Return ())
  ∧ mark it2 p (with_known p init) = (with_known p init, Return ())
  ∧ (mark it1 p ;; mark it2 p) init = (with_known p init, Return ())
  ∧ known_files (state_after ((mark it1 p ;; mark it2 p) init))
    = known_files (state_after (mark it1 p init))
  ∧ (¬ (p ∈ reserved_files self) → outcome (mark it1 p self) = Return () →
     mark it2 p (state_after (mark it1 p self))
     = (state_after (mark it1 p self), Return ())).
Proof.
  assert (mark it1 p init = (with_known p init, Return ())) as H1
    by (apply mark_nothing_to_check; simpl; set_solver).
  assert (mark it2 p (with_known p init) = (with_known p init, Return ())) as H2.
  { rewrite <- (with_known_twice p init) at 2.
    apply mark_nothing_to_check. simpl. set_solver. }
  assert ((mark it1 p ;; mark it2 p) init = (with_known p init, Return ())) as H12
    by (by rewrite (bind_return (mark it1 p) _ init (with_known p init) ())).
  split; [exact H1|]. split; [exact H2|]. split; [exact H12|].
  split; [by rewrite H12, H1|].
  intros Hnot Hret.
  pose proof (mark_return_inv it1 p self Hret) as Hnone.
  rewrite (mark_returns it1 p self Hnone). unfold state_after. simpl.
  rewrite <- (with_known_twice p self) at 2.
  apply mark_returns. intros other Hin. apply Hnone.
  simpl in Hin. set_solver.
Qed.

Lemma unreserved_double_mark_witness :
  ¬ (p_a_b_c ∈ reserved_files (reserved_and_marked p_a_c))
  ∧ outcome (mark in_elements_order p_a_b_c (reserved_and_marked p_a_c)) = Return ()
  ∧ mark in_reverse_order p_a_b_c
      (state_after (mark in_elements_order p_a_b_c (reserved_and_marked p_a_c)))
    = (state_after (mark in_elements_order p_a_b_c (reserved_and_marked p_a_c)),
       Return ()).
Proof.
  assert (¬ (p_a_b_c ∈ reserved_files (reserved_and_marked p_a_c))) as Hnot.
  { simpl. intros Hin. apply elem_of_union in Hin as [Hin|Hin].
    - apply elem_of_singleton in Hin. discriminate.
    - by apply not_elem_of_empty in Hin. }
  assert (outcome (mark in_elements_order p_a_b_c (reserved_and_marked p_a_c))
          = Return ()) as Hret by (vm_compute; reflexivity).
  split; [exact Hnot|]. split; [exact Hret|].
  destruct (unreserved_double_mark in_elements_order in_reverse_order p_a_b_c
              (reserved_and_marked p_a_c)) as (_ & _ & _ & _ & H).
  exact (H Hnot Hret).
Defined.

(** * Further properties of [report.py] *)

(** ** [is_relative_to] as an order on paths *)

Lemma is_relative_to_anchored a b :
  valid a = true → valid b = true → is_relative_to a b = true →
  anchored a = anchored b.
Proof.
  intros Va Vb [Hpre Hc]%is_relative_to_valid; [|done..].
  destruct b as [|s b].
  - destruct (anchored a); [|done]. by destruct Hc.
  - by apply anchored_prefix.
Qed.

(** For the POSIX flavour: on values of [PurePosixPath], [is_relative_to a b]
    holds exactly when the parts of [b] are a prefix of the parts of [a],
    unless [b] is the empty path and [a] has a root. *)
Theorem is_relative_to_characterisation (a b : PurePath) :
  valid a = true → valid b = true →
  (is_relative_to a b = true
   ↔ b `prefix_of` a ∧ ¬ (b = [] ∧ anchored a = true)).
Proof.
  intros Va Vb. split.
  - by apply is_relative_to_valid.
  - intros [Hpre Hc]. by apply is_relative_to_prefix.
Qed.

Lemma is_relative_to_characterisation_witness :
  valid p_a_b_c = true ∧ valid p_a_b = true
  ∧ (is_relative_to p_a_b_c p_a_b = true
     ↔ p_a_b `prefix_of` p_a_b_c ∧ ¬ (p_a_b = [] ∧ anchored p_a_b_c = true)).
Proof.
  split; [reflexivity|]. split; [reflexivity|].
  apply (is_relative_to_characterisation p_a_b_c p_a_b); reflexivity.
Defined.

(** For the POSIX flavour: on values of [PurePosixPath], [is_relative_to]
    never relates a path with a root and a path without one.  (Paths of the
    Windows flavour, which have drives, are outside the model.) *)
Theorem is_relative_to_same_anchor (a b : PurePath) :
  valid a = true → valid b = true → is_relative_to a b = true →
  anchored a = anchored b.
Proof. apply is_relative_to_anchored. Qed.

Lemma is_relative_to_same_anchor_witness :
  valid [ "/"; "a"; "b" ] = true ∧ valid p_abs_a = true
  ∧ is_relative_to [ "/"; "a"; "b" ] p_abs_a = true
  ∧ anchored [ "/"; "a"; "b" ] = anchored p_abs_a.
Proof.
  split; [reflexivity|]. split; [reflexivity|]. split; [reflexivity|].
  apply (is_relative_to_same_anchor [ "/"; "a"; "b" ] p_abs_a); reflexivity.
Defined.





(** ** What decides the result of [mark] *)

Lemma collides_true_of_case path other :
  other = path
  ∨ (other ≠ path ∧ is_relative_to path other || is_relative_to other path = true) →
  collides path other = true.
Proof.
  unfold collides. intros [->|[_ H]].
  - by rewrite bool_decide_eq_true_2.
  - by rewrite <- orb_assoc, H, orb_true_r.
Qed.

Lemma mark_raises_if_collides (it : iteration) path other self :
  other ∈ known_files self ∩ reserved_files self →
  collides path other = true →
  ∃ e, mark it path self = (self, Raise e).
Proof.
  intros Hin Hcol.
  destruct (mark_outcome_cases it path self) as [Hnone|[e He]].
  { rewrite (Hnone other Hin) in Hcol. discriminate. }
  exists e. destruct (mark_raises it path self e He) as [Hst _].
  destruct (mark it path self) as [s o]. simpl in *. by subst.
Qed.

(** Whether [mark] returns does not depend on the order in which the set is
    walked: if it returns for one order it does the same for every order, and
    if it raises for one order it raises for every order (possibly another
    exception), leaving the report unchanged. *)
Theorem mark_success_order_independent
    (it1 it2 : iteration) (path : PurePath) (self : Report) :
  (outcome (mark it1 path self) = Return () →
   mark it2 path self = mark it1 path self)
  ∧ (∀ e, outcome (mark it1 path self) = Raise e →
          ∃ e', mark it2 path self = (self, Raise e')).
Proof.
  split.
  - intros H. pose proof (mark_return_inv it1 path self H) as Hnone.
    by rewrite !mark_returns.
  - intros e He.
    destruct (mark_raises it1 path self e He) as (_ & other & Hin & Hcase).
    apply (mark_raises_if_collides it2 path other self Hin).
    apply collides_true_of_case. destruct Hcase as [[-> _]|(? & ? & _)]; auto.
Qed.

Lemma mark_success_order_independent_witness :
  outcome (mark in_elements_order p_a_b reserved_late)
    = Raise (MarkConflictException p_a_b p_a_b_c)
  ∧ ∃ e', mark in_reverse_order p_a_b reserved_late = (reserved_late, Raise e').
Proof.
  assert (outcome (mark in_elements_order p_a_b reserved_late)
          = Raise (MarkConflictException p_a_b p_a_b_c)) as H
    by (vm_compute; reflexivity).
  split; [exact H|].
  destruct (mark_success_order_independent in_elements_order in_reverse_order
              p_a_b reserved_late) as [_ Hr].
  exact (Hr _ H).
Defined.

(** Every exception of [mark] names a real collision: a
    [MarkDuplicateException] is raised only for a path that is marked and
    reserved, and a [MarkConflictException] only with a different path that is
    marked and reserved and relative to the new path, or the new path to
    it. *)
Theorem mark_exception_sound
    (it : iteration) (path : PurePath) (self : Report) (e : Exception) :
  outcome (mark it path self) = Raise e →
  (e = MarkDuplicateException path
   ∧ path ∈ known_files self ∩ reserved_files self)
  ∨ (∃ other, e = MarkConflictException path other
       ∧ other ∈ known_files self ∩ reserved_files self
       ∧ other ≠ path
       ∧ (is_relative_to path other = true ∨ is_relative_to other path = true)).
Proof.
  intros H. destruct (mark_raises it path self e H) as (_ & other & Hin & Hcase).
  destruct Hcase as [[-> ->]|(Hne & Hrel & ->)]; [by left|right].
  exists other. repeat split; [done..|]. by apply orb_true_iff.
Qed.

Lemma mark_exception_sound_witness :
  outcome (mark in_elements_order p_a_b reserved_late)
    = Raise (MarkConflictException p_a_b p_a_b_c)
  ∧ ((MarkConflictException p_a_b p_a_b_c = MarkDuplicateException p_a_b
      ∧ p_a_b ∈ known_files reserved_late ∩ reserved_files reserved_late)
     ∨ (∃ other, MarkConflictException p_a_b p_a_b_c
                 = MarkConflictException p_a_b other
          ∧ other ∈ known_files reserved_late ∩ reserved_files reserved_late
          ∧ other ≠ p_a_b
          ∧ (is_relative_to p_a_b other = true
             ∨ is_relative_to other p_a_b = true))).
Proof.
  assert (outcome (mark in_elements_order p_a_b reserved_late)
          = Raise (MarkConflictException p_a_b p_a_b_c)) as H
    by (vm_compute; reflexivity).
  split; [exact H|].
  exact (mark_exception_sound in_elements_order p_a_b reserved_late _ H).
Defined.

Lemma for_each_check_outcome others path self self' :
  outcome (for_each others (mark_check path) self)
  = outcome (for_each others (mark_check path) self').
Proof.
  induction others as [|other others IH]; [done|].
  rewrite !for_each_cons, !mark_check_eq.
  destruct (bool_decide (path = other)); [done|].
  by destruct (is_relative_to path other || is_relative_to other path).
Qed.



(** ** What a whole session does to the five sets *)

Lemma perform_all_cons c calls self :
  perform_all (c :: calls) self = perform_all calls (perform c self).
Proof. reflexivity. Qed.

Lemma perform_state c self :
  perform c self =
    match c with
    | call_mark_reserved path => state_after (mark_reserved path self)
    | call_mark it path =>
        match outcome (mark it path self) with
        | Return _ => with_known path self
        | Raise _ => self
        end
    | call_marked path => self
    | call_add_file path => state_after (add_file path self)
    | call_change_file path => state_after (change_file path self)
    | call_delete_file path => state_after (delete_file path self)
    end.
Proof. destruct c; try reflexivity. apply mark_state. Qed.

Lemma perform_all_monotone calls self :
  known_files self ⊆ known_files (perform_all calls self)
  ∧ reserved_files self ⊆ reserved_files (perform_all calls self).
Proof.
  revert self. induction calls as [|c calls IH]; intros self; [done|].
  rewrite perform_all_cons.
  destruct (IH (perform c self)) as [HK HR].
  destruct (perform_monotone c self) as [HK1 HR1].
  split; by etrans.
Qed.

Lemma perform_all_frame calls self :
  new_files self ⊆ new_files (perform_all calls self)
  ∧ changed_files self ⊆ changed_files (perform_all calls self)
  ∧ deleted_files self ⊆ deleted_files (perform_all calls self).
Proof.
  revert self. induction calls as [|c calls IH]; intros self; [done|].
  rewrite perform_all_cons.
  destruct (IH (perform c self)) as (HN & HC & HD).
  assert (new_files self ⊆ new_files (perform c self)
          ∧ changed_files self ⊆ changed_files (perform c self)
          ∧ deleted_files self ⊆ deleted_files (perform c self))
    as (HN1 & HC1 & HD1).
  { rewrite perform_state.
    destruct c as [path|it path|path|path|path|path]; simpl;
      try destruct (outcome (mark it path self)); simpl;
      (split; [|split]); set_solver. }
  split; [|split]; by etrans.
Qed.

(** Nothing is ever removed: after any sequence of calls, each of the five
    sets contains what it contained before. *)
Theorem sets_never_shrink (calls : list Call) (self : Report) :
  reserved_files self ⊆ reserved_files (perform_all calls self)
  ∧ known_files self ⊆ known_files (perform_all calls self)
  ∧ new_files self ⊆ new_files (perform_all calls self)
  ∧ changed_files self ⊆ changed_files (perform_all calls self)
  ∧ deleted_files self ⊆ deleted_files (perform_all calls self).
Proof.
  destruct (perform_all_monotone calls self) as [HK HR].
  destruct (perform_all_frame calls self) as (HN & HC & HD).
  split; [exact HR|]. split; [exact HK|]. split; [exact HN|].
  split; [exact HC|exact HD].
Qed.

(** After any sequence of calls, [reserved_files] holds exactly what it held
    before and the arguments of the calls of [mark_reserved], and each outcome
    set exactly what it held before and the arguments of the calls of its own
    method: [mark], whether it returns or raises, and the other methods put
    nothing into these four sets. *)
Theorem recorded_sets_exact (calls : list Call) (self : Report) :
  reserved_files (perform_all calls self)
    = list_to_set (reserved_paths calls) ∪ reserved_files self
  ∧ new_files (perform_all calls self)
    = list_to_set (added_paths calls) ∪ new_files self
  ∧ changed_files (perform_all calls self)
    = list_to_set (changed_paths calls) ∪ changed_files self
  ∧ deleted_files (perform_all calls self)
    = list_to_set (deleted_paths calls) ∪ deleted_files self.
Proof.
  revert self. induction calls as [|c calls IH]; intros self.
  { simpl. split; [|split; [|split]]; set_solver. }
  rewrite perform_all_cons.
  destruct (IH (perform c self)) as (HR & HN & HC & HD).
  rewrite HR, HN, HC, HD, perform_state. clear HR HN HC HD IH.
  destruct c as [path|it path|path|path|path|path]; simpl;
    try destruct (outcome (mark it path self)); simpl;
    (split; [|split; [|split]]); set_solver.
Qed.

(** A path gets into [known_files] only through a call of [mark] with that
    path: after any sequence of calls, every known path was known before or
    is the argument of one of the calls of [mark]. *)
Theorem known_only_through_mark (calls : list Call) (self : Report) :
  known_files (perform_all calls self)
    ⊆ list_to_set (mark_paths calls) ∪ known_files self.
Proof.
  revert self. induction calls as [|c calls IH]; intros self.
  { simpl. set_solver. }
  rewrite perform_all_cons. specialize (IH (perform c self)).
  rewrite perform_state in IH |- *.
  destruct c as [path|it path|path|path|path|path]; simpl in *;
    try destruct (outcome (mark it path self)); simpl in *; set_solver.
Qed.





(** ** Sessions that reserve before they mark *)

Lemma foldl_step_fst calls st :
  (foldl step st calls).1 = perform_all calls st.1.
Proof.
  revert st. induction calls as [|c calls IH]; intros st; [done|].
  simpl. by rewrite IH.
Qed.

Lemma disciplined_seen calls st :
  st.2 = known_files st.1 →
  disciplined_from (reserved_files st.1) calls = true →
  (foldl step st calls).2 = known_files (foldl step st calls).1.
Proof.
  revert st. induction calls as [|c calls IH]; intros [self seen] Hseen Hd; [done|].
  simpl in *. apply IH; clear IH.
  - unfold step. simpl. rewrite perform_state.
    destruct c as [path|it path|path|path|path|path]; simpl; try done.
    apply andb_true_iff in Hd as [Hin%bool_decide_eq_true _].
    destruct (outcome (mark it path self)); [|done].
    rewrite (bool_decide_eq_true_2 _ Hin). simpl. by rewrite Hseen.
  - unfold step. simpl. rewrite perform_state.
    destruct c as [path|it path|path|path|path|path]; simpl; try done.
    apply andb_true_iff in Hd as [_ Hd].
    by destruct (outcome (mark it path self)).
Qed.

Lemma disciplined_run calls :
  disciplined_from ∅ calls = true → (run calls).2 = known_files (run calls).1.
Proof. intros Hd. by apply (disciplined_seen calls (init, ∅)). Qed.

Lemma run_fst calls : (run calls).1 = perform_all calls init.
Proof. apply (foldl_step_fst calls (init, ∅)). Qed.

Lemma run_conflict_free calls : conflict_free (run calls).
Proof. apply conflict_free_foldl, conflict_free_init. Qed.

(** When every [mark path] of a session comes after a [mark_reserved path],
    the session, started on a fresh report, ends with every known path
    reserved and with no two distinct known paths relative to one another:
    [known_files] never holds a file together with one of its directories. *)
Theorem disciplined_session_conflict_free (calls : list Call) (p q : PurePath) :
  disciplined_from ∅ calls = true →
  known_files (perform_all calls init) ⊆ reserved_files (perform_all calls init)
  ∧ (p ∈ known_files (perform_all calls init) →
     q ∈ known_files (perform_all calls init) → p ≠ q →
     is_relative_to p q = false ∧ is_relative_to q p = false).
Proof.
  intros Hd.
  pose proof (disciplined_run calls Hd) as Hseen.
  pose proof (run_fst calls) as Hfst.
  destruct (run_conflict_free calls) as [Hsub Hfree].
  destruct (run calls) as [self seen]. simpl in *. subst self seen.
  split; [set_solver|].
  intros Hp Hq Hne.
  destruct (proj1 (collides_false p q) (Hfree p q Hp Hq Hne)) as (_ & ? & ?).
  by split.
Qed.

Lemma disciplined_session_conflict_free_witness :
  disciplined_from ∅ busy_session = true
  ∧ p_a_b ∈ known_files (perform_all busy_session init)
  ∧ p_a_c ∈ known_files (perform_all busy_session init)
  ∧ p_a_b ≠ p_a_c
  ∧ is_relative_to p_a_b p_a_c = false ∧ is_relative_to p_a_c p_a_b = false.
Proof.
  assert (disciplined_from ∅ busy_session = true) as Hd by (vm_compute; reflexivity).
  assert (p_a_b ∈ known_files (perform_all busy_session init)) as Hb
    by (vm_compute; reflexivity).
  assert (p_a_c ∈ known_files (perform_all busy_session init)) as Hc
    by (vm_compute; reflexivity).
  assert (p_a_b ≠ p_a_c) as Hne by discriminate.
  split; [exact Hd|]. split; [exact Hb|]. split; [exact Hc|]. split; [exact Hne|].
  destruct (disciplined_session_conflict_free busy_session p_a_b p_a_c Hd)
    as [_ H].
  exact (H Hb Hc Hne).
Defined.

(** ** Reserving and marking a list of paths *)

Lemma forallb_not_collides p rest :
  forallb (λ q, negb (collides p q)) rest = true
  ↔ ∀ q, q ∈ rest → collides p q = false.
Proof.
  induction rest as [|x rest IH]; simpl.
  - split; [|done]. intros _ q Hq. by apply elem_of_nil in Hq.
  - rewrite andb_true_iff, negb_true_iff, IH. setoid_rewrite elem_of_cons.
    split.
    + intros [Hx Hrest] q [->|Hq]; [done|by apply Hrest].
    + intros H. split; [apply H; by left|]. intros q Hq. apply H. by right.
Qed.

Lemma reserve_and_mark_all_cons (it : iteration) p rest self :
  reserve_and_mark_all it (p :: rest) self =
    match mark it p (state_after (mark_reserved p self)) with
    | (self', Return _) => reserve_and_mark_all it rest self'
    | (self', Raise e) => (self', Raise e)
    end.
Proof. reflexivity. Qed.

Lemma reserve_and_mark_all_from (it : iteration) paths self :
  known_files self ⊆ reserved_files self →
  (outcome (reserve_and_mark_all it paths self) = Return ()
   ↔ (∀ p o, p ∈ paths → o ∈ known_files self → collides p o = false)
     ∧ unrelated paths = true)
  ∧ (outcome (reserve_and_mark_all it paths self) = Return () →
     known_files (state_after (reserve_and_mark_all it paths self))
       = list_to_set paths ∪ known_files self
     ∧ reserved_files (state_after (reserve_and_mark_all it paths self))
       = list_to_set paths ∪ reserved_files self).
Proof.
  revert self. induction paths as [|p rest IH]; intros self Hsub.
  { split.
    - split; [|done]. intros _. split; [|done].
      intros p o Hp. by apply elem_of_nil in Hp.
    - intros _. simpl. split; set_solver. }
  rewrite reserve_and_mark_all_cons.
  set (r1 := state_after (mark_reserved p self)).
  assert (known_files r1 ∩ reserved_files r1 = known_files self) as Hcheck
    by (subst r1; simpl; set_solver).
  destruct (mark_outcome_cases it p r1) as [Hnone|[e He]].
  - rewrite (mark_returns it p r1 Hnone). rewrite Hcheck in Hnone.
    destruct (IH (with_known p r1)) as [Hiff Hst];
      [subst r1; simpl; set_solver|].
    split.
    + rewrite Hiff. simpl. rewrite andb_true_iff, forallb_not_collides.
      setoid_rewrite elem_of_cons. split.
      * intros [Hall Hun]. split; [|split; [|done]].
        -- intros q o [->|Hq] Ho; [by apply Hnone|]. apply Hall; [done|set_solver].
        -- intros q Hq. rewrite collides_sym. apply Hall; [done|set_solver].
      * intros [Hall [Hp Hun]]. split; [|done].
        intros q o Hq [->%elem_of_singleton|Ho]%elem_of_union.
        -- rewrite collides_sym. by apply Hp.
        -- apply Hall; [by right|done].
    + intros Hret. destruct (Hst Hret) as [-> ->]. subst r1. simpl.
      split; set_solver.
  - destruct (mark_raises it p r1 e He) as (Hst & other & Hin & Hcase).
    assert (mark it p r1 = (r1, Raise e)) as ->.
    { destruct (mark it p r1) as [s o]. simpl in *. by subst. }
    split; [|done]. split; [done|]. intros [Hall _].
    rewrite Hcheck in Hin.
    assert (collides p other = true) as Hcol.
    { apply collides_true_of_case. destruct Hcase as [[-> _]|(? & ? & _)]; auto. }
    rewrite (Hall p other) in Hcol; [done|apply elem_of_cons; by left|done].
Qed.

(** On a fresh report, reserving and marking the paths of a list one after
    the other goes through without an exception exactly when no two paths of
    the list, at different positions, are equal or relative to one another;
    then [known_files] and [reserved_files] both end as the set of the paths
    of the list. *)
Theorem reserve_and_mark_all_iff_unrelated (it : iteration) (paths : list PurePath) :
  (outcome (reserve_and_mark_all it paths init) = Return ()
   ↔ unrelated paths = true)
  ∧ (outcome (reserve_and_mark_all it paths init) = Return () →
     known_files (state_after (reserve_and_mark_all it paths init))
       = list_to_set paths
     ∧ reserved_files (state_after (reserve_and_mark_all it paths init))
       = list_to_set paths).
Proof.
  destruct (reserve_and_mark_all_from it paths init) as [Hiff Hst]; [done|].
  split.
  - rewrite Hiff. split; [by intros [_ ?]|]. intros H. split; [|done].
    intros p o _ Ho. simpl in Ho. by apply not_elem_of_empty in Ho.
  - intros Hret. destruct (Hst Hret) as [-> ->]. simpl. split; set_solver.
Qed.

Lemma reserve_and_mark_all_iff_unrelated_witness :
  unrelated [p_a_b; p_a_c; p_x_y; p_abs_a] = true
  ∧ outcome (reserve_and_mark_all in_reverse_order
               [p_a_b; p_a_c; p_x_y; p_abs_a] init) = Return ().
Proof.
  split; [reflexivity|].
  apply (reserve_and_mark_all_iff_unrelated in_reverse_order
           [p_a_b; p_a_c; p_x_y; p_abs_a]).
  reflexivity.
Defined.
